(** * mapstructure: error aggregation, error formatting, decode hooks

    A shallow embedding of [error.go] (the aggregated error) and
    [errors.go] (the per-field errors) of the mapstructure package, and of
    the decode hooks as the specification and the test file describe them.

    Go strings are byte sequences, modelled by [string]; [len] is a [nat];
    a Go slice that is only read is a [list], and a slice whose backing
    array is written is modelled in the store of module [Mem].  A value of
    interface type [error] is a non-nil value of the inductive [error]; a
    field or a receiver that may be nil is an [option]. *)

From Stdlib Require Import Ascii ZArith.
From stdpp Require Import gmap strings list sorting pretty.

Set Warnings "-register-all".

(** ** The pieces of the Go standard library the package calls *)

(** The line break written [\n] in the Go sources. *)
Definition LF : string := String "010"%char EmptyString.

(** [strings.Join(elems, sep)]. *)
Fixpoint strings_Join (elems : list string) (sep : string) : string :=
  match elems with
  | [] => ""
  | [x] => x
  | x :: rest => x +:+ sep +:+ strings_Join rest sep
  end.

(** [strings.HasPrefix(s, prefix)]. *)
Fixpoint strings_HasPrefix (s prefix : string) {struct prefix} : bool :=
  match prefix, s with
  | EmptyString, _ => true
  | String _ _, EmptyString => false
  | String c p', String d s' =>
      if Ascii.eqb c d then strings_HasPrefix s' p' else false
  end.

(** [strings.Contains(s, substr)]: [substr] occurs at some offset of [s]. *)
Fixpoint strings_Contains (s substr : string) : bool :=
  strings_HasPrefix s substr
  || match s with
     | EmptyString => false
     | String _ s' => strings_Contains s' substr
     end.

(** [sort.Strings(x)] puts [x] in increasing byte-wise lexical order.  Go
    strings compare byte by byte, which is [String.le]; the order is total
    and antisymmetric, so the sorted arrangement of a list is unique
    ([sort_Strings_unique] below) and any correct sorting algorithm computes
    this function. *)
Definition sort_Strings (x : list string) : list string :=
  merge_sort String.le x.

(** The verbs of [fmt.Sprintf] that the package uses on integers: [%d]. *)
Definition fmt_d (n : Z) : string := pretty n.

(** ** Dynamic values and types ([interface{}], [reflect.Type]) *)

(** The values that end up in the [Value interface{}] field of the error
    types: the raw input of a decode step. *)
Inductive any : Type :=
| any_nil
| any_string (s : string)
| any_int (z : Z)
| any_bool (b : bool).

(** [reflect.Type], as far as the error messages look at it: its name. *)
Record rtype : Type := Rtype { rtype_String : string }.

(** A valid [reflect.Value], as far as the error messages look at it: the
    type [Type()] answers. *)
Record reflect_Value : Type := ReflectValue { Type_ : rtype }.

Definition fmt_bool (b : bool) : string := if b then "true" else "false".

(** [fmt]'s [%v] on a value of type [interface{}]. *)
Definition fmt_v (a : any) : string :=
  match a with
  | any_nil => "<nil>"
  | any_string s => s
  | any_int z => fmt_d z
  | any_bool b => fmt_bool b
  end.

(** [fmt]'s [%s] on a value of type [interface{}]: a string is printed as
    it is, any other operand is reported as a bad verb, [%!s(type=value)]. *)
Definition fmt_s (a : any) : string :=
  match a with
  | any_nil => "%!s(<nil>)"
  | any_string s => s
  | any_int z => "%!s(int=" +:+ fmt_d z +:+ ")"
  | any_bool b => "%!s(bool=" +:+ fmt_bool b +:+ ")"
  end.

(** [reflect.TypeOf(a)] printed with [%s]. *)
Definition fmt_TypeOf (a : any) : string :=
  match a with
  | any_nil => "%!s(<nil>)"
  | any_string _ => "string"
  | any_int _ => "int"
  | any_bool _ => "bool"
  end.

(** ** error.go: the aggregated error *)

(** [type joinedError struct { Errors []string }]. *)
Record joinedError : Type := JoinedError { Errors : list string }.

(** The values of the interface type [error] that the package builds.  A
    field of type [error] may hold [nil], hence the [option]s. *)
Inductive error : Type :=
| errorString (s : string)
    (* errors.New(s), and any error of another package with message s *)
| joinedErrorPtr (e : joinedError)
| DecodeError (name : string) (err : option error)
| ParseError (Expected : reflect_Value) (Value : any) (Err : option error)
| UnconvertibleTypeError (Expected : reflect_Value) (Value : any)
| ErrCannotDecode (Name : string) (Err : option error)
| ErrCannotParse (Name : string) (Err : option error)
    (Expected : reflect_Value) (Value : any)
| ErrUnconvertibleType (Name : string) (Expected : reflect_Value) (Value : any).

(** [fmt.Sprintf("* %s", err)]. *)
Definition bullet (err : string) : string := "* " +:+ err.

(** [func (e *joinedError) Error() string], on a non-nil receiver. *)
Definition joinedError_Error (e : joinedError) : string :=
  let points := bullet <$> Errors e in
  let points := sort_Strings points in
  fmt_d (Z.of_nat (length (Errors e))) +:+ " error(s) decoding:" +:+ LF +:+ LF
    +:+ strings_Join points LF.

(** The method [Error] of the interface, by dynamic type.  An [error]
    operand of [%s] is printed through its [Error] method, a nil one as
    [%!s(<nil>)]. *)
Fixpoint Error (e : error) : string :=
  let fmt_s_error (o : option error) : string :=
    match o with
    | Some e' => Error e'
    | None => "%!s(<nil>)"
    end in
  match e with
  | errorString s => s
  | joinedErrorPtr j => joinedError_Error j
  | DecodeError name err =>
      "'" +:+ name +:+ "' " +:+ fmt_s_error err
  | ParseError Expected Value Err =>
      "cannot parse '" +:+ fmt_s Value +:+ "' as '"
        +:+ rtype_String (Type_ Expected) +:+ "': " +:+ fmt_s_error Err
  | UnconvertibleTypeError Expected Value =>
      "expected type '" +:+ rtype_String (Type_ Expected)
        +:+ "', got unconvertible type '" +:+ fmt_TypeOf Value
        +:+ "', value: '" +:+ fmt_v Value +:+ "'"
  | ErrCannotDecode Name Err =>
      "'" +:+ Name +:+ "': " +:+ fmt_s_error Err
  | ErrCannotParse Name Err Expected Value =>
      "'" +:+ Name +:+ "' cannot parse '" +:+ fmt_s Value +:+ "' as '"
        +:+ rtype_String (Type_ Expected) +:+ "': " +:+ fmt_s_error Err
  | ErrUnconvertibleType Name Expected Value =>
      "'" +:+ Name +:+ "' expected type '" +:+ rtype_String (Type_ Expected)
        +:+ "', got unconvertible type '" +:+ fmt_TypeOf Value
        +:+ "', value: '" +:+ fmt_v Value +:+ "'"
  end.

(** [%s] on an operand of static type [error]. *)
Definition fmt_s_error (o : option error) : string :=
  match o with
  | Some e => Error e
  | None => "%!s(<nil>)"
  end.

(** [func (e *joinedError) Unwrap() []error].  The receiver is a pointer
    that may be nil ([None]); the result is a slice that may be nil
    ([None]), and [make] never returns a nil slice. *)
Definition Unwrap (e : option joinedError) : option (list error) :=
  match e with
  | None => None
  | Some e => Some (errorString <$> Errors e)
  end.

(** [func appendErrors(errors []string, err error) []string]. *)
Definition appendErrors (errors : list string) (err : error) : list string :=
  match err with
  | joinedErrorPtr e => errors ++ Errors e
  | e => errors ++ [Error e]
  end.

(** The test of the dynamic type that [appendErrors] switches on. *)
Definition is_joinedError (err : error) : bool :=
  match err with
  | joinedErrorPtr _ => true
  | _ => false
  end.

(** The field name a per-field error carries, when it carries one. *)
Definition field_name (err : error) : option string :=
  match err with
  | DecodeError name _ => Some name
  | ErrCannotDecode Name _ => Some Name
  | ErrCannotParse Name _ _ _ => Some Name
  | ErrUnconvertibleType Name _ _ => Some Name
  | _ => None
  end.

(** The check of [TestErrorLeakageDecodeHook]: the error message contains
    the input as [%v] prints it. *)
Definition error_contains_input (err : error) (value : any) : bool :=
  strings_Contains (Error err) (fmt_v value).

(** ** The store: slices, backing arrays and the receiver of [Error]

    [Error] writes: it fills a slice it has just made and sorts it in
    place.  To see what it can and cannot change, the slices live in a
    store here: a slice value is a window on a backing array, arrays and
    [joinedError] structs are found at locations, and every operation
    passes the store along.  [None] is a run-time panic. *)

Module Mem.

Definition loc : Type := positive.

(** A slice value: nil, or [len] elements of the array at [a] from index
    [off]. *)
Inductive slice : Type :=
| nil_slice
| Slice (a : loc) (off len : nat).

Definition len (s : slice) : nat :=
  match s with
  | nil_slice => 0
  | Slice _ _ n => n
  end.

(** The store: the backing arrays of [[]string] slices, and the
    [joinedError] structs, each the slice in its field [Errors]. *)
Record store : Type := Store {
  arrays : gmap loc (list string);
  structs : gmap loc slice
}.

Definition M (A : Type) : Type := store → option (A * store).

Definition panic {A} : M A := λ _, None.

#[export] Instance M_ret : MRet M := λ A a m, Some (a, m).
#[export] Instance M_bind : MBind M := λ A B k c m,
  match c m with
  | Some (a, m') => k a m'
  | None => None
  end.

(** [*e] for a pointer to a [joinedError]; the nil pointer panics. *)
Definition load (e : option loc) : M slice :=
  match e with
  | None => panic
  | Some l => λ m, (λ s, (s, m)) <$> structs m !! l
  end.

(** The elements a slice shows, when its window lies in its array. *)
Definition contents (m : store) (s : slice) : option (list string) :=
  match s with
  | nil_slice => Some []
  | Slice a off n =>
      arr ← arrays m !! a;
      if decide (off + n ≤ length arr) then Some (take n (drop off arr))
      else None
  end.

(** [make([]string, n)]: a new array of [n] empty strings, at a location
    no array of the store has. *)
Definition make (n : nat) : M slice :=
  λ m, let a := fresh (dom (arrays m)) in
       Some (Slice a 0 n,
             Store (<[a := replicate n ""]> (arrays m)) (structs m)).

(** [s[i]], with its bounds check. *)
Definition index (s : slice) (i : nat) : M string :=
  match s with
  | nil_slice => panic
  | Slice a off n =>
      if decide (i < n) then
        λ m, arr ← arrays m !! a;
             x ← arr !! (off + i);
             Some (x, m)
      else panic
  end.

(** [s[i] = x], with its bounds check. *)
Definition assign (s : slice) (i : nat) (x : string) : M unit :=
  match s with
  | nil_slice => panic
  | Slice a off n =>
      if decide (i < n) then
        λ m, arr ← arrays m !! a;
             if decide (off + i < length arr) then
               Some (tt, Store (<[a := <[off + i := x]> arr]> (arrays m))
                               (structs m))
             else None
      else panic
  end.

(** [for i, x := range s { body }]: the slice value is read once, the
    elements as the loop reaches them. *)
Fixpoint range_from (s : slice) (body : nat → string → M unit)
    (i count : nat) : M unit :=
  match count with
  | 0 => mret tt
  | S count' =>
      x ← index s i;
      body i x;;
      range_from s body (S i) count'
  end.

Definition range (s : slice) (body : nat → string → M unit) : M unit :=
  range_from s body 0 (len s).

(** [sort.Strings(s)]: sorts the window of [s] in its array. *)
Definition sort_Strings_in_place (s : slice) : M unit :=
  λ m, match s with
       | nil_slice => Some (tt, m)
       | Slice a off n =>
           arr ← arrays m !! a;
           if decide (off + n ≤ length arr) then
             Some (tt,
                   Store (<[a := take off arr
                                 ++ sort_Strings (take n (drop off arr))
                                 ++ drop (off + n) arr]> (arrays m))
                         (structs m))
           else None
       end.

(** Reading the elements of a slice, as [strings.Join] does. *)
Definition read (s : slice) : M (list string) :=
  λ m, (λ xs, (xs, m)) <$> contents m s.

(** [func (e *joinedError) Error() string]. *)
Definition Error (e : option loc) : M string :=
  Errors ← load e;
  points ← make (len Errors);
  range Errors (λ i err, assign points i (bullet err));;
  sort_Strings_in_place points;;
  elems ← read points;
  mret (fmt_d (Z.of_nat (len Errors)) +:+ " error(s) decoding:" +:+ LF +:+ LF
         +:+ strings_Join elems LF).

(** [func (e *joinedError) Unwrap() []error].  The result slice is new
    and handed to the caller, so it is returned as a value: [None] for the
    nil slice, [Some] of the elements otherwise. *)
Definition Unwrap (e : option loc) : M (option (list error)) :=
  match e with
  | None => mret None
  | Some _ =>
      Errors ← load e;
      elems ← read Errors;
      mret (Some (errorString <$> elems))
  end.

(** A receiver the methods can run on: a struct at [e] whose slice lies
    in an array of the store. *)
Definition valid_receiver (m : store) (e : loc) (xs : list string) : Prop :=
  ∃ s, structs m !! e = Some s ∧ contents m s = Some xs.

End Mem.

(** A store to run the methods on: the receiver at location 7 holds the
    slice of two elements, from index 1, of the array at location 1. *)
Definition example_store : Mem.store :=
  Mem.Store {[ 1%positive := ["zz"; "b"; "a"; "c"] ]}
            {[ 7%positive := Mem.Slice 1%positive 1 2 ]}.

(** ** The decode hooks

    The test file calls [DecodeHookExec], [ComposeDecodeHookFunc],
    [OrComposeDecodeHookFunc] and the built-in hooks; [decode_hooks.go],
    which defines them, is not among the sources.  The definitions of this
    module follow the specification of the package (its sections 3 and 4.1
    to 4.4) and the calls and expectations of the tests. *)

Module Hooks.

(** [reflect.Kind]: the category tag of a value. *)
Inductive Kind : Type :=
| KInvalid | KBool
| KInt | KInt8 | KInt16 | KInt32 | KInt64
| KUint | KUint8 | KUint16 | KUint32 | KUint64
| KFloat32 | KFloat64 | KComplex64 | KComplex128
| KInterface | KMap | KPointer | KSlice | KString | KStruct.

(** The widths of the fixed-width integers; [WPlatform] is [int]/[uint]. *)
Inductive Width : Type := W8 | W16 | W32 | W64 | WPlatform.

(** The shapes whose values come from outside the package, kept by their
    text form. *)
Inductive External : Type :=
| Float32 | Float64 | Complex64 | Complex128
| Time | URL | IPAddress | IPNetwork | NetAddr | NetAddrPort | NetPrefix
| TextCapable (name : string).

(** Modelled from the spec: the types the hooks of [decode_hooks.go]
    dispatch on, which are missing with that file.  Section 3: a target
    descriptor is "a category tag plus a zero-valued placeholder
    representing the destination's shape"; the shapes are the closed set
    that the catalog of section 4.3 and the hooks of 4.4 name. *)
Inductive Shape : Type :=
| Text | TextSeq | ByteSeq | Boolean
| Signed (w : Width) | Unsigned (w : Width)
| Duration
| Ext (x : External)
| Record_ (name : string)
| Mapping
| Untyped.

(** Modelled from the spec: the dynamic values the hooks of
    [decode_hooks.go] receive and return, missing with that file.  Section
    3: a source descriptor is "a category tag [...] plus the dynamic value
    itself"; the values are a closed tagged variant over the shapes. *)
Inductive Value : Type :=
| VNil
| VText (s : string)
| VTextSeq (xs : list string)
| VBytes (bs : string)
| VBool (b : bool)
| VSigned (w : Width) (z : Z)
| VUnsigned (w : Width) (z : Z)
| VDuration (ns : Z)
| VExt (x : External) (repr : string)
| VRecord (name : string) (fields : list (string * Value))
| VMapping (entries : list (string * Value)).

#[export] Instance Width_eq_dec : EqDecision Width.
Proof. solve_decision. Defined.
#[export] Instance External_eq_dec : EqDecision External.
Proof. solve_decision. Defined.
#[export] Instance Shape_eq_dec : EqDecision Shape.
Proof. solve_decision. Defined.

(** [reflect.Value.Type()], [reflect.Value.Kind()]. *)
Definition shape_of (v : Value) : Shape :=
  match v with
  | VNil => Untyped
  | VText _ => Text
  | VTextSeq _ => TextSeq
  | VBytes _ => ByteSeq
  | VBool _ => Boolean
  | VSigned w _ => Signed w
  | VUnsigned w _ => Unsigned w
  | VDuration _ => Duration
  | VExt x _ => Ext x
  | VRecord name _ => Record_ name
  | VMapping _ => Mapping
  end.

Definition kind_of (t : Shape) : Kind :=
  match t with
  | Text => KString
  | TextSeq | ByteSeq => KSlice
  | Boolean => KBool
  | Signed W8 => KInt8 | Signed W16 => KInt16 | Signed W32 => KInt32
  | Signed W64 => KInt64 | Signed WPlatform => KInt
  | Unsigned W8 => KUint8 | Unsigned W16 => KUint16 | Unsigned W32 => KUint32
  | Unsigned W64 => KUint64 | Unsigned WPlatform => KUint
  | Duration => KInt64
  | Ext Float32 => KFloat32 | Ext Float64 => KFloat64
  | Ext Complex64 => KComplex64 | Ext Complex128 => KComplex128
  | Ext URL => KPointer
  | Ext IPAddress => KSlice
  | Ext _ => KStruct
  | Record_ _ => KStruct
  | Mapping => KMap
  | Untyped => KInterface
  end.

(** The zero value of a shape: the placeholder of a target descriptor. *)
Definition zero (t : Shape) : Value :=
  match t with
  | Text => VText ""
  | TextSeq => VTextSeq []
  | ByteSeq => VBytes ""
  | Boolean => VBool false
  | Signed w => VSigned w 0
  | Unsigned w => VUnsigned w 0
  | Duration => VDuration 0
  | Ext x => VExt x ""
  | Record_ name => VRecord name []
  | Mapping => VMapping []
  | Untyped => VNil
  end.

(** What a hook hands back: a plain value, or an already-resolved value (a
    [reflect.Value]) that the next hook of a chain must classify again. *)
Inductive Output : Type :=
| Plain (v : Value)
| Resolved (v : Value).

Definition resolve (o : Output) : Value :=
  match o with
  | Plain v => v
  | Resolved v => v
  end.

(** The outcomes of a call: a result, an error, or a panic. *)
Inductive outcome (A : Type) : Type :=
| Ok (a : A)
| Err (e : error)
| Panic (v : string).
Arguments Ok {A} a.
Arguments Err {A} e.
Arguments Panic {A} v.

(** A hook is a Go closure: it runs in the state [W] of the variables it
    has captured, and may change it. *)
Definition H (W A : Type) : Type := W → outcome A * W.

#[export] Instance H_ret {W} : MRet (H W) := λ A a w, (Ok a, w).
#[export] Instance H_bind {W} : MBind (H W) := λ A B k c w,
  match c w with
  | (Ok a, w') => k a w'
  | (Err e, w') => (Err e, w')
  | (Panic v, w') => (Panic v, w')
  end.

Definition fail {W A} (e : error) : H W A := λ w, (Err e, w).

(** Modelled from the spec: the type [DecodeHookFunc] of
    [decode_hooks.go], missing with that file: a hook in one of the three
    calling conventions of section 4.1, (a) category tags and the raw value,
    (b) the two full types and the raw value, (c) the two descriptors.  A
    convention that does not fit has no constructor: it is refused when the
    hook is built.  A hook without an error result is one that never
    answers [Err]. *)
Inductive DecodeHookFunc (W : Type) : Type :=
| DecodeHookFuncKind (f : Kind → Kind → Value → H W Output)
| DecodeHookFuncType (f : Shape → Shape → Value → H W Output)
| DecodeHookFuncValue (f : Value → Value → H W Output).
Arguments DecodeHookFuncKind {W} f.
Arguments DecodeHookFuncType {W} f.
Arguments DecodeHookFuncValue {W} f.

(** Modelled from the spec: [DecodeHookExec] of [decode_hooks.go], missing
    with that file.  Section 4.1: it "normalizes calling convention and
    invokes it; returns a converted value or an error". *)
Definition DecodeHookExec {W} (raw : DecodeHookFunc W) (from to : Value)
    : H W Output :=
  match raw with
  | DecodeHookFuncKind f =>
      f (kind_of (shape_of from)) (kind_of (shape_of to)) from
  | DecodeHookFuncType f => f (shape_of from) (shape_of to) from
  | DecodeHookFuncValue f => f from to
  end.

(** Modelled from the spec: the loop of [ComposeDecodeHookFunc], missing
    with [decode_hooks.go]: a left fold in which each hook receives the
    output of the one before, resolved, as its source; the target stays;
    the kind and type the hook is dispatched on are those of the new source
    ([DecodeHookExec] computes them anew). *)
Fixpoint compose_from {W} (fs : list (DecodeHookFunc W)) (to : Value)
    (data : Output) : H W Output :=
  match fs with
  | [] => mret data
  | f :: fs' =>
      out ← DecodeHookExec f (resolve data) to;
      compose_from fs' to out
  end.

(** Modelled from the spec: [ComposeDecodeHookFunc] of [decode_hooks.go],
    missing with that file: the AND-compose of section 4.2, "left-fold;
    hook i+1 receives hook i's output reinterpreted as the new source; the
    nominal target descriptor is fixed for the whole chain [...] Stops and
    returns immediately on the first failing hook; does not invoke
    subsequent hooks." *)
Definition ComposeDecodeHookFunc {W} (fs : list (DecodeHookFunc W))
    : DecodeHookFunc W :=
  DecodeHookFuncValue (λ from to, compose_from fs to (Plain from)).

(** Modelled from the spec: the loop of [OrComposeDecodeHookFunc], missing
    with [decode_hooks.go], with the messages gathered so far. *)
Fixpoint or_from {W} (fs : list (DecodeHookFunc W)) (a b : Value)
    (allErrs : string) : H W Output :=
  match fs with
  | [] => fail (errorString allErrs)
  | f :: fs' =>
      λ w, match DecodeHookExec f a b w with
           | (Ok out, w') => (Ok out, w')
           | (Err e, w') => or_from fs' a b (allErrs +:+ Error e +:+ LF) w'
           | (Panic v, w') => (Panic v, w')
           end
  end.

(** Modelled from the spec: [OrComposeDecodeHookFunc] of
    [decode_hooks.go], missing with that file: the OR-compose of section
    4.2, "tries hooks strictly in declared order; returns the first
    success.  If all fail, returns an AggregatedError containing every
    hook's message, in declaration order, each terminated by a line break".
    [TestOrComposeDecodeHookFunc_err] expects the message of that error to
    be the concatenation itself, so the error is built by [errors.New]. *)
Definition OrComposeDecodeHookFunc {W} (fs : list (DecodeHookFunc W))
    : DecodeHookFunc W :=
  DecodeHookFuncValue (λ a b, or_from fs a b "").

(** The built-in hooks that convert text to one target shape, by the names
    the tests call them with. *)
Inductive TextHook : Type :=
| StringToTimeDurationHookFunc
| StringToURLHookFunc
| StringToIPHookFunc
| StringToIPNetHookFunc
| StringToTimeHookFunc (layout : string)
| StringToNetIPAddrHookFunc
| StringToNetIPAddrPortHookFunc
| StringToNetIPPrefixHookFunc
| StringToInt8HookFunc | StringToUint8HookFunc
| StringToInt16HookFunc | StringToUint16HookFunc
| StringToInt32HookFunc | StringToUint32HookFunc
| StringToInt64HookFunc | StringToUint64HookFunc
| StringToIntHookFunc | StringToUintHookFunc
| StringToFloat32HookFunc | StringToFloat64HookFunc
| StringToBoolHookFunc | StringToByteHookFunc | StringToRuneHookFunc
| StringToComplex64HookFunc | StringToComplex128HookFunc.

(** The built-in hooks. *)
Inductive Builtin : Type :=
| StringToSliceHookFunc (sep : string)
| TextTo (h : TextHook)
| StringToBasicTypeHookFunc
| TextUnmarshallerHookFunc
| WeaklyTypedHook
| RecursiveStructToMapHookFunc.

(** Modelled from the spec: the target shape of each built-in hook of
    [decode_hooks.go] that is a row "text → X" of the catalog (section
    4.3); the hooks are missing with that file.  A single byte is an
    unsigned 8-bit integer and a single code point a signed 32-bit one. *)
Definition target (h : TextHook) : Shape :=
  match h with
  | StringToTimeDurationHookFunc => Duration
  | StringToURLHookFunc => Ext URL
  | StringToIPHookFunc => Ext IPAddress
  | StringToIPNetHookFunc => Ext IPNetwork
  | StringToTimeHookFunc _ => Ext Time
  | StringToNetIPAddrHookFunc => Ext NetAddr
  | StringToNetIPAddrPortHookFunc => Ext NetAddrPort
  | StringToNetIPPrefixHookFunc => Ext NetPrefix
  | StringToInt8HookFunc => Signed W8
  | StringToUint8HookFunc => Unsigned W8
  | StringToInt16HookFunc => Signed W16
  | StringToUint16HookFunc => Unsigned W16
  | StringToInt32HookFunc => Signed W32
  | StringToUint32HookFunc => Unsigned W32
  | StringToInt64HookFunc => Signed W64
  | StringToUint64HookFunc => Unsigned W64
  | StringToIntHookFunc => Signed WPlatform
  | StringToUintHookFunc => Unsigned WPlatform
  | StringToFloat32HookFunc => Ext Float32
  | StringToFloat64HookFunc => Ext Float64
  | StringToBoolHookFunc => Boolean
  | StringToByteHookFunc => Unsigned W8
  | StringToRuneHookFunc => Signed W32
  | StringToComplex64HookFunc => Ext Complex64
  | StringToComplex128HookFunc => Ext Complex128
  end.

(** The hooks that [StringToBasicTypeHookFunc] chains, in the order of
    [TestStringToBasicTypeHookFunc]. *)
Definition basic_hooks : list TextHook :=
  [ StringToInt8HookFunc; StringToUint8HookFunc;
    StringToInt16HookFunc; StringToUint16HookFunc;
    StringToInt32HookFunc; StringToUint32HookFunc;
    StringToInt64HookFunc; StringToUint64HookFunc;
    StringToIntHookFunc; StringToUintHookFunc;
    StringToFloat32HookFunc; StringToFloat64HookFunc;
    StringToBoolHookFunc; StringToByteHookFunc; StringToRuneHookFunc;
    StringToComplex64HookFunc; StringToComplex128HookFunc ].

Definition is_capable (t : Shape) : bool :=
  match t with
  | Ext (TextCapable _) => true
  | _ => false
  end.

Section catalog.
Context {W : Type}.

(** What the package takes from outside: the grammar each hook parses text
    with for a target shape (Go's [strconv], [time], [net], [net/url], and
    the target's own parse-from-text method), with the error it reports on
    malformed text; the outer decode operation that the struct-to-map hook
    re-enters; and the error of a shape mismatch. *)
Variable grammar : Builtin → Shape → string → Value + error.
Variable outer_decode : Value → Value → H W Output.
Variable shape_mismatch : Shape → Shape → error.

Definition parsed (r : Value + error) : H W Output :=
  match r with
  | inl v => mret (Plain v)
  | inr e => fail e
  end.

(** Modelled from the spec: the built-in hooks [StringTo...HookFunc] of
    [decode_hooks.go], missing with that file.  A row "text → X" of the
    catalog (section 4.3) converts when the source is text and the target
    has shape [X], and is a no-op passthrough on any other pair ("non-text
    source/target is a no-op passthrough", "non-duration target
    passthrough"; the tests run each hook on a text target and expect the
    source back). *)
Definition text_to (h : Builtin) (X : Shape) : DecodeHookFunc W :=
  DecodeHookFuncType (λ f t data,
    if decide (f = Text ∧ t = X) then
      match data with
      | VText s => parsed (grammar h X s)
      | _ => mret (Plain data)
      end
    else mret (Plain data)).

(** Modelled from the spec: [StringToSliceHookFunc] of [decode_hooks.go],
    missing with that file.  Section 4.3: "text → sequence-of-text: splits
    on a configured delimiter; empty input yields an empty sequence (never
    a one-element sequence); non-text source/target is a no-op
    passthrough". *)
Definition string_to_slice (sep : string) : DecodeHookFunc W :=
  DecodeHookFuncType (λ f t data,
    if decide (f = Text ∧ t = TextSeq) then
      match data with
      | VText "" => mret (Plain (VTextSeq []))
      | VText s => parsed (grammar (StringToSliceHookFunc sep) TextSeq s)
      | _ => mret (Plain data)
      end
    else mret (Plain data)).

(** Modelled from the spec: [TextUnmarshallerHookFunc] of
    [decode_hooks.go], missing with that file.  Section 4.3: "any value
    exposing a parse-self-from-text capability → destination of that
    capability's type: invoked via the capability; its own failure is
    propagated"; the source is text, as in [TestTextUnmarshallerHookFunc]. *)
Definition text_unmarshaller : DecodeHookFunc W :=
  DecodeHookFuncType (λ f t data,
    if bool_decide (f = Text) && is_capable t then
      match data with
      | VText s => parsed (grammar TextUnmarshallerHookFunc t s)
      | _ => mret (Plain data)
      end
    else mret (Plain data)).

(** Modelled from the spec: [WeaklyTypedHook] of [decode_hooks.go],
    missing with that file.  Section 4.3: it "permits cross-category
    coercion when the destination is not already directly assignable:
    boolean↔text ("0"/"1"), numeric→text (decimal form), byte-sequence→text
    (raw reinterpretation), and well-defined reverses". *)
Definition weakly_typed : DecodeHookFunc W :=
  DecodeHookFuncType (λ f t data,
    if decide (f = t) then mret (Plain data)
    else
      match t, data with
      | Text, VBool b => mret (Plain (VText (if b then "1" else "0")))
      | Text, VSigned _ z => mret (Plain (VText (fmt_d z)))
      | Text, VUnsigned _ z => mret (Plain (VText (fmt_d z)))
      | Text, VExt Float32 r => mret (Plain (VText r))
      | Text, VExt Float64 r => mret (Plain (VText r))
      | Text, VBytes bs => mret (Plain (VText bs))
      | ByteSeq, VText s => mret (Plain (VBytes s))
      | Boolean, VText s => parsed (grammar WeaklyTypedHook t s)
      | Signed _, VText s => parsed (grammar WeaklyTypedHook t s)
      | Unsigned _, VText s => parsed (grammar WeaklyTypedHook t s)
      | Ext Float32, VText s => parsed (grammar WeaklyTypedHook t s)
      | Ext Float64, VText s => parsed (grammar WeaklyTypedHook t s)
      | _, _ => mret (Plain data)
      end).

(** Modelled from the spec: [RecursiveStructToMapHookFunc] of
    [decode_hooks.go], missing with that file.  Section 4.4: a record with
    a mapping or untyped destination re-enters the outer decode operation
    with a mapping destination; a record with a sequence destination is a
    shape-mismatch error; everything else is an untouched passthrough. *)
Definition struct_to_map : DecodeHookFunc W :=
  DecodeHookFuncValue (λ from to,
    match shape_of from, shape_of to with
    | Record_ _, Mapping => outer_decode from (zero Mapping)
    | Record_ _, Untyped => outer_decode from (zero Mapping)
    | Record_ name, TextSeq => fail (shape_mismatch (Record_ name) TextSeq)
    | Record_ name, ByteSeq => fail (shape_mismatch (Record_ name) ByteSeq)
    | _, _ => mret (Plain from)
    end).

(** Modelled from the spec: the hook each built-in name of
    [decode_hooks.go] stands for; [StringToBasicTypeHookFunc] chains the
    hooks of the basic types, as [TestStringToBasicTypeHookFunc] uses it. *)
Definition builtin (h : Builtin) : DecodeHookFunc W :=
  match h with
  | StringToSliceHookFunc sep => string_to_slice sep
  | TextTo r => text_to (TextTo r) (target r)
  | StringToBasicTypeHookFunc =>
      ComposeDecodeHookFunc
        ((λ r, text_to (TextTo r) (target r)) <$> basic_hooks)
  | TextUnmarshallerHookFunc => text_unmarshaller
  | WeaklyTypedHook => weakly_typed
  | RecursiveStructToMapHookFunc => struct_to_map
  end.

End catalog.

(** The messages of a run in which every hook of [fs] fails on [(a, b)],
    each hook run in the state the one before left: [Some] of the messages
    in the order of [fs] and of the last state, [None] when a hook succeeds
    or panics. *)
Fixpoint failures {W} (fs : list (DecodeHookFunc W)) (a b : Value) (w : W)
    : option (list string * W) :=
  match fs with
  | [] => Some ([], w)
  | f :: fs' =>
      match DecodeHookExec f a b w with
      | (Err e, w1) =>
          match failures fs' a b w1 with
          | Some (msgs, w') => Some (Error e :: msgs, w')
          | None => None
          end
      | _ => None
      end
  end.

(** Every message followed by a line break, one after the other. *)
Fixpoint lines (msgs : list string) : string :=
  match msgs with
  | [] => ""
  | msg :: msgs' => msg +:+ LF +:+ lines msgs'
  end.

End Hooks.

(** ** The hooks of the test file *)

Module Tests.
Import Hooks.

(** [data.(string) + suffix], the hooks of [TestComposeDecodeHookFunc]. *)
Definition appending {W} (suffix : string) : DecodeHookFunc W :=
  DecodeHookFuncKind (λ _ _ data w,
    match data with
    | VText s => (Ok (Plain (VText (s +:+ suffix))), w)
    | _ => (Panic "interface conversion", w)
    end).

(** [return nil, errors.New(msg)]. *)
Definition failing {W} (msg : string) : DecodeHookFunc W :=
  DecodeHookFuncKind (λ _ _ _, fail (errorString msg)).

(** [panic("NOPE")]. *)
Definition panicking {W} : DecodeHookFunc W :=
  DecodeHookFuncKind (λ _ _ _ w, (Panic "NOPE", w)).

(** The two hooks of [TestComposeDecodeHookFunc_kinds]; the state is the
    captured variable [f2From]. *)
Definition returns_int : DecodeHookFunc Kind :=
  DecodeHookFuncKind (λ _ _ _, mret (Plain (VSigned WPlatform 42))).
Definition records_kind : DecodeHookFunc Kind :=
  DecodeHookFuncKind (λ f _ data _, (Ok (Plain data), f)).

(** [reflectValueHook] of [TestComposeDecodeHookFunc_ReflectValueHook]. *)
Definition reflectValueHook : DecodeHookFunc unit :=
  DecodeHookFuncKind (λ _ _ data w,
    match data with
    | VText s => (Ok (Resolved (VText (s +:+ "foo"))), w)
    | _ => (Panic "interface conversion", w)
    end).

End Tests.

(** ** errors.go: building and inspecting a [DecodeError] *)

(** [func newDecodeError(name string, err error) *DecodeError]. *)
Definition newDecodeError (name : string) (err : option error) : error :=
  DecodeError name err.

(** [func (e *DecodeError) Name() string]; [None] on an error of another
    type, which has no such method. *)
Definition Name (e : error) : option string :=
  match e with
  | DecodeError name _ => Some name
  | _ => None
  end.

(** [func (e *DecodeError) Unwrap() error]; [None] on an error of another
    type, [Some None] when the wrapped error is nil. *)
Definition DecodeError_Unwrap (e : error) : option (option error) :=
  match e with
  | DecodeError _ err => Some err
  | _ => None
  end.

(** [newDecodeError] applied once per name, the first name outermost. *)
Definition nested (names : list string) (cause : error) : error :=
  foldr (λ name e, newDecodeError name (Some e)) cause names.

(** [Unwrap] followed [k] times from a [DecodeError]. *)
Fixpoint unwrap_times (k : nat) (e : error) : option error :=
  match k with
  | 0 => Some e
  | S k' =>
      match DecodeError_Unwrap e with
      | Some (Some e') => unwrap_times k' e'
      | _ => None
      end
  end.

(** The quoted names of a chain of [DecodeError]s, each followed by the
    space of the format string ['%s' %s]. *)
Fixpoint quoted_names (names : list string) : string :=
  match names with
  | [] => ""
  | name :: names' => "'" +:+ name +:+ "' " +:+ quoted_names names'
  end.

(** ** error.go: appending in a loop *)

(** The entries [appendErrors] adds for an error. *)
Definition entries (err : error) : list string :=
  match err with
  | joinedErrorPtr e => Errors e
  | e => [Error e]
  end.

(** [errors = appendErrors(errors, err)] for each error of a list in
    turn. *)
Definition appendAll (errors : list string) (errs : list error) : list string :=
  foldl appendErrors errors errs.

(** The byte [c] occurs in [s]. *)
Fixpoint has_byte (c : ascii) (s : string) : bool :=
  match s with
  | EmptyString => false
  | String d s' => Ascii.eqb c d || has_byte c s'
  end.

(** The byte of a line break. *)
Definition LF_byte : ascii := "010"%char.

Section store_calls.
Import Mem.

(** [e.Error()] called [k] times in a row on the same receiver, with the
    reports in the order of the calls. *)
Fixpoint Error_times (k : nat) (e : option loc) : M (list string) :=
  match k with
  | 0 => mret []
  | S k' =>
      report ← Error e;
      reports ← Error_times k' e;
      mret (report :: reports)
  end.

End store_calls.

(** ** The test suite of the hooks ([decodeHookTestSuite])

    The suite is generic in the source type [F] and the target type [T].
    It takes [DecodeHookExec] (not among the sources), [reflect.DeepEqual]
    and the zero values of the two types from outside; a subtest that calls
    [t.Fatalf] has failed.  The subtests are marked parallel; with
    [DecodeHookExec] a function their verdicts do not depend on the
    order they run in. *)

Module Suite.
Section suite.
Context {Hook V : Type}.

Variable DecodeHookExec : Hook → V → V → V + error.
Variable DeepEqual : V → V → bool.
Variable zeroF zeroT : V.

(** [type decodeHookTestCase[F any, T any] struct]. *)
Record decodeHookTestCase : Type := TestCase { from : V; expected : V }.

(** [type decodeHookFailureTestCase[F any, T any] struct]. *)
Record decodeHookFailureTestCase : Type := FailureTestCase { from_ : V }.

(** [type decodeHookTestSuite[F any, T any] struct]. *)
Record decodeHookTestSuite : Type := TestSuite {
  fn : Hook;
  ok : list decodeHookTestCase;
  fail : list decodeHookFailureTestCase
}.

Inductive verdict : Type := passed | failed.

Definition is_passed (v : verdict) : bool :=
  match v with
  | passed => true
  | failed => false
  end.

(** [func (tc decodeHookTestCase[F, T]) Run(t *testing.T, fn DecodeHookFunc)]. *)
Definition decodeHookTestCase_Run (tc : decodeHookTestCase) (fn : Hook)
    : verdict :=
  match DecodeHookExec fn (from tc) zeroT with
  | inr _ => failed
  | inl actual => if DeepEqual actual (expected tc) then passed else failed
  end.

(** [func (tc decodeHookFailureTestCase[F, T]) Run(t *testing.T, fn
    DecodeHookFunc)]. *)
Definition decodeHookFailureTestCase_Run (tc : decodeHookFailureTestCase)
    (fn : Hook) : verdict :=
  match DecodeHookExec fn (from_ tc) zeroT with
  | inr _ => passed
  | inl _ => failed
  end.

(** The verdicts of the three subtests of a suite. *)
Record results : Type := Results {
  OK : list verdict;
  Fail : list verdict;
  NoOp : verdict
}.

(** [func (ts decodeHookTestSuite[F, T]) Run(t *testing.T)]: the subtest
    "Fail" ranges over [ts.ok], as the source does. *)
Definition Run (ts : decodeHookTestSuite) : results :=
  {| OK := (λ tc, decodeHookTestCase_Run tc (fn ts)) <$> ok ts;
     Fail := (λ tc, decodeHookTestCase_Run tc (fn ts)) <$> ok ts;
     NoOp :=
       match DecodeHookExec (fn ts) zeroF zeroF with
       | inr _ => failed
       | inl actual => if DeepEqual actual zeroF then passed else failed
       end |}.

(** The test passes when no subtest has failed. *)
Definition succeeds (r : results) : bool :=
  forallb is_passed (OK r) && forallb is_passed (Fail r) && is_passed (NoOp r).

End suite.
End Suite.

(** * Properties *)

(** ** Facts about the string functions *)

Section string_facts.
Implicit Types s t p : string.

Lemma str_app_cons c s t : String c s +:+ t = String c (s +:+ t).
Proof. reflexivity. Qed.

Lemma str_app_nil_l s : "" +:+ s = s.
Proof. reflexivity. Qed.

Lemma str_app_nil_r s : s +:+ "" = s.
Proof. induction s as [|c s IH]; [done|]. by rewrite str_app_cons, IH. Qed.

Lemma str_app_assoc s t p : (s +:+ t) +:+ p = s +:+ (t +:+ p).
Proof. induction s as [|c s IH]; [done|]. by rewrite !str_app_cons, IH. Qed.

Lemma strings_HasPrefix_app p s : strings_HasPrefix (p +:+ s) p = true.
Proof.
  induction p as [|c p IH]; [done|].
  rewrite str_app_cons. simpl. rewrite Ascii.eqb_refl. exact IH.
Qed.

Lemma strings_HasPrefix_spec s p :
  strings_HasPrefix s p = true ↔ ∃ t, s = p +:+ t.
Proof.
  revert s; induction p as [|c p IH]; intros s; simpl.
  - split; [intros _; by exists s | done].
  - destruct s as [|d s]; simpl.
    + split; [done | intros [t Ht]; discriminate].
    + destruct (Ascii.eqb_spec c d) as [->|Hne].
      * rewrite IH. split; intros [t Ht]; exists t.
        -- by rewrite Ht.
        -- rewrite str_app_cons in Ht. by simplify_eq.
      * split; [done | intros [t Ht]]. rewrite str_app_cons in Ht. by simplify_eq.
Qed.

Lemma strings_Contains_spec s p :
  strings_Contains s p = true ↔ ∃ a b, s = a +:+ p +:+ b.
Proof.
  induction s as [|c s IH]; simpl.
  - rewrite orb_false_r, strings_HasPrefix_spec. split.
    + intros [t Ht]. by exists "", t.
    + intros [[|??] [b Hb]]; [by exists b | discriminate].
  - rewrite orb_true_iff, IH, strings_HasPrefix_spec. split.
    + intros [[t Ht]|(a & b & Hab)].
      * by exists "", t.
      * exists (String c a), b. by rewrite str_app_cons, Hab.
    + intros ([|d a] & b & Hab).
      * left. by exists b.
      * right. exists a, b. rewrite str_app_cons in Hab. by simplify_eq.
Qed.

Lemma strings_Contains_mid a p b : strings_Contains (a +:+ p +:+ b) p = true.
Proof. apply strings_Contains_spec. by exists a, b. Qed.

Lemma strings_Contains_trans s t p :
  strings_Contains s t = true → strings_Contains t p = true →
  strings_Contains s p = true.
Proof.
  rewrite !strings_Contains_spec.
  intros (a & b & ->) (a' & b' & ->).
  exists (a +:+ a'), (b' +:+ b). by rewrite !str_app_assoc.
Qed.
End string_facts.

(** ** Facts about [sort.Strings] *)

Section sort_facts.
Implicit Types x y : list string.

Lemma sort_Strings_Sorted x : Sorted String.le (sort_Strings x).
Proof. apply (Sorted_merge_sort String.le). Qed.

Lemma sort_Strings_Permutation x : sort_Strings x ≡ₚ x.
Proof. apply merge_sort_Permutation. Qed.

(** The sorted arrangement is unique: whatever algorithm [sort.Strings]
    runs, a sorted permutation of [x] is [sort_Strings x]. *)
Lemma sort_Strings_unique x y :
  Sorted String.le y → y ≡ₚ x → y = sort_Strings x.
Proof.
  intros Hy Hp. apply (Sorted_unique String.le); [done| |].
  - apply sort_Strings_Sorted.
  - by rewrite sort_Strings_Permutation.
Qed.

Lemma sort_Strings_perm x y : x ≡ₚ y → sort_Strings x = sort_Strings y.
Proof.
  intros Hp. apply sort_Strings_unique; [apply sort_Strings_Sorted|].
  by rewrite sort_Strings_Permutation.
Qed.

Lemma bullet_le (s t : string) : String.le (bullet s) (bullet t) ↔ String.le s t.
Proof. reflexivity. Qed.

(** Sorting the bullets is sorting the messages: the common prefix does
    not change the order. *)
Lemma sort_Strings_bullet x :
  sort_Strings (bullet <$> x) = bullet <$> sort_Strings x.
Proof.
  symmetry. apply sort_Strings_unique.
  - eapply Sorted_fmap; [|apply sort_Strings_Sorted].
    intros s t. by rewrite bullet_le.
  - by rewrite sort_Strings_Permutation.
Qed.

Lemma sort_Strings_length x : length (sort_Strings x) = length x.
Proof. by rewrite sort_Strings_Permutation. Qed.
End sort_facts.

(** ** The aggregated error: formatting, decomposition, appending *)

Example joinedError_Error_two :
  joinedError_Error (JoinedError ["b"; "a"])
  = "2 error(s) decoding:" +:+ LF +:+ LF +:+ "* a" +:+ LF +:+ "* b".
Proof. vm_compute. reflexivity. Qed.

Example joinedError_Error_none :
  joinedError_Error (JoinedError []) = "0 error(s) decoding:" +:+ LF +:+ LF.
Proof. vm_compute. reflexivity. Qed.

Example appendErrors_aggregate :
  appendErrors ["x"] (joinedErrorPtr (JoinedError ["b"; "a"])) = ["x"; "b"; "a"].
Proof. reflexivity. Qed.

Example appendErrors_other :
  appendErrors ["x"] (DecodeError "f" (Some (errorString "boom")))
  = ["x"; "'f' boom"].
Proof. reflexivity. Qed.

(** [strings.Join] is the concatenation with a separator of the standard
    library of strings. *)
Lemma strings_Join_concat (elems : list string) (sep : string) :
  strings_Join elems sep = String.concat sep elems.
Proof.
  induction elems as [|x [|y rest] IH]; [done..|].
  change (strings_Join (x :: y :: rest) sep)
    with (x +:+ sep +:+ strings_Join (y :: rest) sep).
  by rewrite IH.
Qed.

(** C1. The report of an aggregated error is the decimal count of its
    messages, the text " error(s) decoding:", a blank line (two line
    breaks), and one line per message, the lines joined by line breaks;
    each line is "* " followed by its message, and the lines are in
    lexically sorted order, whatever the order the messages were collected
    in.  The lines are those of the one sorted arrangement [sorted] of the
    stored messages; the report is spelled out with the literal texts, the
    decimal printer [pretty] and the concatenation [String.concat] of the
    libraries. *)
Theorem joinedError_Error_sorted_report (e : joinedError) :
  ∃ sorted : list string,
    sorted ≡ₚ Errors e
    ∧ Sorted String.le sorted
    ∧ (∀ sorted' : list string,
         sorted' ≡ₚ Errors e → Sorted String.le sorted' → sorted' = sorted)
    ∧ Sorted String.le ((λ msg, "* " +:+ msg) <$> sorted)
    ∧ joinedError_Error e
      = pretty (Z.of_nat (length (Errors e)))
          +:+ " error(s) decoding:"
          +:+ String "010"%char (String "010"%char "")
          +:+ String.concat (String "010"%char "")
                ((λ msg, "* " +:+ msg) <$> sorted)
    ∧ ∀ e' : joinedError,
        Errors e' ≡ₚ Errors e → joinedError_Error e' = joinedError_Error e.
Proof.
  exists (sort_Strings (Errors e)). split_and!.
  - apply sort_Strings_Permutation.
  - apply sort_Strings_Sorted.
  - intros sorted' Hp Hs. by apply sort_Strings_unique.
  - eapply Sorted_fmap; [|apply sort_Strings_Sorted]. by intros s t Hst.
  - unfold joinedError_Error.
    rewrite sort_Strings_bullet, strings_Join_concat. reflexivity.
  - intros e' Hp. unfold joinedError_Error.
    rewrite (sort_Strings_perm (bullet <$> Errors e') (bullet <$> Errors e))
      by (by rewrite Hp).
    by rewrite (Permutation_length Hp).
Qed.

(** C3. Appending an aggregate splices its messages, in their stored order,
    after the existing ones (the list grows by their number, never by one
    nested entry); appending any other error adds one entry, its message;
    in both cases the existing entries stay as they were, at the front. *)
Theorem appendErrors_splices (errors : list string) :
  (∀ e : joinedError,
     appendErrors errors (joinedErrorPtr e) = errors ++ Errors e
     ∧ length (appendErrors errors (joinedErrorPtr e))
       = length errors + length (Errors e))
  ∧ (∀ err : error,
       is_joinedError err = false →
       appendErrors errors err = errors ++ [Error err])
  ∧ (∀ err : error, take (length errors) (appendErrors errors err) = errors)
  ∧ (∀ (err : error) (i : nat) (s : string),
       errors !! i = Some s → appendErrors errors err !! i = Some s).
Proof.
  split_and!.
  - intros e. split; [done|]. simpl. by rewrite length_app.
  - intros err Hj. by destruct err.
  - intros err. destruct err; simpl; by rewrite take_app_length.
  - intros err i s Hi. destruct err; simpl; by apply lookup_app_l_Some.
Qed.

(** C4. Unwrap of an aggregate of [n] messages is a sequence of [n]
    primitive errors, the [i]-th being [errors.New] of the [i]-th stored
    message: same messages, same (stored, unsorted) order. *)
Theorem Unwrap_primitive_errors (e : joinedError) :
  ∃ result : list error,
    Unwrap (Some e) = Some result
    ∧ length result = length (Errors e)
    ∧ (∀ i : nat, result !! i = errorString <$> Errors e !! i)
    ∧ Error <$> result = Errors e.
Proof.
  exists (errorString <$> Errors e). split_and!.
  - done.
  - by rewrite length_fmap.
  - intros i. by rewrite list_lookup_fmap.
  - rewrite <-list_fmap_compose. by rewrite <-(list_fmap_id (Errors e)) at 2.
Qed.

(** C10. Unwrap of the nil pointer is the nil slice, with no panic; on a
    non-nil receiver the result is a non-nil slice as long as the stored
    list, so the empty list gives the empty non-nil slice. *)
Theorem Unwrap_nil_and_length :
  Unwrap None = None
  ∧ (∀ e : joinedError,
       ∃ result : list error,
         Unwrap (Some e) = Some result
         ∧ length result = length (Errors e))
  ∧ Unwrap (Some (JoinedError [])) = Some [].
Proof.
  split_and!; [done| |done].
  intros e. exists (errorString <$> Errors e). by rewrite length_fmap.
Qed.

(** ** errors.go: the per-field errors *)

(** C8. A [DecodeError] with field name [n] and inner error [e] reads
    ['n' ] and then the message of [e]; an [ErrCannotDecode] reads ['n': ]
    and then the message of [e] (a nil inner error is printed as [%s]
    prints nil); and the report of every error that carries a field name
    starts with that name in quotes, so the name is in the report. *)
Theorem decode_error_names_field (n : string) (e : error) :
  Error (DecodeError n (Some e)) = "'" +:+ n +:+ "' " +:+ Error e
  ∧ Error (ErrCannotDecode n (Some e)) = "'" +:+ n +:+ "': " +:+ Error e
  ∧ (∀ inner : option error,
       Error (DecodeError n inner) = "'" +:+ n +:+ "' " +:+ fmt_s_error inner
       ∧ Error (ErrCannotDecode n inner)
         = "'" +:+ n +:+ "': " +:+ fmt_s_error inner)
  ∧ ∀ err : error,
      field_name err = Some n →
      strings_HasPrefix (Error err) ("'" +:+ n +:+ "'") = true
      ∧ strings_Contains (Error err) n = true.
Proof.
  split_and!; [done..|].
  intros err Hn.
  assert (∃ rest, Error err = "'" +:+ n +:+ "'" +:+ rest) as [rest Hrest].
  { destruct err; simplify_eq/=; eexists; reflexivity. }
  rewrite Hrest. split.
  - rewrite <-!str_app_assoc. apply strings_HasPrefix_app.
  - apply strings_Contains_mid.
Qed.

Example ErrCannotParse_Error_int :
  Error (ErrCannotParse "f" None (ReflectValue (Rtype "int8")) (any_int 12))
  = "'f' cannot parse '%!s(int=12)' as 'int8': %!s(<nil>)".
Proof. vm_compute. reflexivity. Qed.

(** ** The store: what [Error] writes *)

Section store_facts.
Import Mem.
Implicit Types (m : store) (s : slice) (xs ys : list string).

Lemma bind_Some {A B} (c : M A) (k : A → M B) m a m1 :
  c m = Some (a, m1) → (c ≫= k) m = k a m1.
Proof. intros Hc. unfold mbind, M_bind. by rewrite Hc. Qed.

Lemma contents_Slice m a off n xs :
  contents m (Slice a off n) = Some xs →
  ∃ arr, arrays m !! a = Some arr ∧ off + n ≤ length arr
         ∧ xs = take n (drop off arr).
Proof.
  unfold contents. intros H.
  destruct (arrays m !! a) as [arr|] eqn:Ha; simplify_eq/=.
  case_decide; simplify_eq/=. eauto.
Qed.

Lemma contents_length m s xs : contents m s = Some xs → length xs = len s.
Proof.
  destruct s as [|a off n]; [by intros [= <-]|].
  intros (arr & _ & Hle & ->)%contents_Slice. simpl.
  rewrite length_take, length_drop. lia.
Qed.

Lemma index_contents m s xs i x :
  contents m s = Some xs → xs !! i = Some x → index s i m = Some (x, m).
Proof.
  intros Hc Hi. pose proof (contents_length _ _ _ Hc) as Hlen.
  apply lookup_lt_Some in Hi as Hlt.
  destruct s as [|a off n]; simpl in *; [lia|].
  apply contents_Slice in Hc as (arr & Ha & Hle & ->).
  unfold index. rewrite decide_True by lia. rewrite Ha. simpl.
  rewrite lookup_take_lt, lookup_drop in Hi by lia. by rewrite Hi.
Qed.

(** What [contents] reads of the store is the array under the slice. *)
Lemma contents_frame m m' s :
  (∀ a arr, arrays m !! a = Some arr → arrays m' !! a = Some arr) →
  ∀ xs, contents m s = Some xs → contents m' s = Some xs.
Proof.
  intros Hframe xs Hc. destruct s as [|a off n]; [done|].
  apply contents_Slice in Hc as (arr & Ha & Hle & ->).
  unfold contents. rewrite (Hframe _ _ Ha). simpl. by rewrite decide_True.
Qed.

(** The loop of [Error]: with [points] on a new array [a], the loop has
    written the bullets of the elements it has passed, and nothing else. *)
Lemma range_fills_points m s xs a :
  contents m s = Some xs →
  arrays m !! a = None →
  ∀ count i ys,
    i + count = len s → length ys = len s →
    range_from s (λ i err, assign (Slice a 0 (len s)) i (bullet err)) i count
      (Store (<[a := ys]> (arrays m)) (structs m))
    = Some (tt, Store (<[a := take i ys ++ (bullet <$> drop i xs)]> (arrays m))
                      (structs m)).
Proof.
  intros Hc Ha. pose proof (contents_length _ _ _ Hc) as Hlen.
  induction count as [|count IH]; intros i ys Hi Hys.
  - simpl. unfold mret, M_ret. do 3 f_equal.
    rewrite take_ge, drop_ge by lia. by rewrite app_nil_r.
  - destruct (lookup_lt_is_Some_2 xs i) as [x Hx]; [lia|].
    cbn [range_from].
    erewrite bind_Some; last first.
    { eapply index_contents; [|done].
      eapply contents_frame; [|done]. intros b arr Hb. simpl.
      rewrite lookup_insert_ne; [done|]. intros ->. congruence. }
    erewrite bind_Some; last first.
    { unfold assign. rewrite decide_True by lia. simpl.
      rewrite lookup_insert_eq. simpl. rewrite decide_True by lia.
      by rewrite insert_insert_eq. }
    rewrite IH by (rewrite ?length_insert; lia).
    do 4 f_equal.
    rewrite (take_S_r _ _ (bullet x))
      by (apply list_lookup_insert_eq; lia).
    rewrite take_insert_ge by lia.
    rewrite (drop_S xs x i Hx). rewrite fmap_cons.
    by rewrite <-app_assoc.
Qed.

(** [Error] runs on a valid receiver: it returns the report of the value
    semantics, and the store it leaves differs by one new array, the
    sorted bullets. *)
Lemma Mem_Error_run m e s xs :
  structs m !! e = Some s → contents m s = Some xs →
  Error (Some e) m
  = Some (joinedError_Error (JoinedError xs),
          Store (<[fresh (dom (arrays m)) := sort_Strings (bullet <$> xs)]>
                   (arrays m))
                (structs m)).
Proof.
  intros He Hc. pose proof (contents_length _ _ _ Hc) as Hlen.
  set (a := fresh (dom (arrays m))).
  assert (arrays m !! a = None) as Ha
    by (apply not_elem_of_dom, is_fresh).
  unfold Error.
  erewrite bind_Some by (unfold load; by rewrite He).
  erewrite bind_Some by reflexivity. fold a.
  erewrite bind_Some; last first.
  { unfold range. apply (range_fills_points m s xs a Hc Ha);
      [lia | by rewrite length_replicate]. }
  rewrite take_0, drop_0, app_nil_l.
  erewrite bind_Some; last first.
  { unfold sort_Strings_in_place. simpl. rewrite lookup_insert_eq. simpl.
    rewrite decide_True by (rewrite length_fmap; lia).
    rewrite insert_insert_eq, drop_0.
    rewrite take_ge, drop_ge by (rewrite length_fmap; lia).
    by rewrite app_nil_r. }
  erewrite bind_Some; last first.
  { unfold read, contents. simpl. rewrite lookup_insert_eq. simpl.
    rewrite decide_True by (rewrite sort_Strings_length, length_fmap; lia).
    rewrite drop_0, take_ge
      by (rewrite sort_Strings_length, length_fmap; lia).
    done. }
  unfold mret, M_ret, joinedError_Error. simpl. by rewrite Hlen.
Qed.

Lemma Mem_Unwrap_run m e s xs :
  structs m !! e = Some s → contents m s = Some xs →
  Unwrap (Some e) m = Some (Some (errorString <$> xs), m).
Proof.
  intros He Hc. unfold Unwrap.
  erewrite bind_Some by (unfold load; by rewrite He).
  erewrite bind_Some by (unfold read; by rewrite Hc).
  done.
Qed.

End store_facts.

(** [sort.Strings] on a slice of the store writes the array under it: run
    on the receiver's own slice it would reorder the stored messages. *)
Example sort_Strings_in_place_writes :
  Mem.arrays <$> (snd <$> Mem.sort_Strings_in_place (Mem.Slice 1%positive 1 2)
                            example_store)
  = Some {[ 1%positive := ["zz"; "a"; "b"; "c"] ]}.
Proof. vm_compute. reflexivity. Qed.

(** C9. [Error] does not mutate its receiver.  On every store and every
    receiver whose slice shows the messages [xs], [Error] returns the
    report of [xs] and leaves a store in which every struct and every array
    that existed is as it was (the bullets are built and sorted in an array
    of their own); the receiver still shows [xs], in the stored order, and
    [Unwrap] after [Error] yields the errors of [xs] in that order. *)
Theorem Error_leaves_receiver_unchanged
    (m : Mem.store) (e : Mem.loc) (xs : list string) :
  Mem.valid_receiver m e xs →
  ∃ (report : string) (m' : Mem.store),
    Mem.Error (Some e) m = Some (report, m')
    ∧ report = joinedError_Error (JoinedError xs)
    ∧ Mem.structs m' = Mem.structs m
    ∧ (∀ (a : Mem.loc) (arr : list string),
         Mem.arrays m !! a = Some arr → Mem.arrays m' !! a = Some arr)
    ∧ Mem.valid_receiver m' e xs
    ∧ Mem.Unwrap (Some e) m' = Some (Some (errorString <$> xs), m')
    ∧ Mem.Unwrap (Some e) m' = Some (Unwrap (Some (JoinedError xs)), m').
Proof.
  intros (s & He & Hc).
  eexists _, _. split; [by apply (Mem_Error_run m e s xs)|].
  assert (∀ (a : Mem.loc) (arr : list string),
            Mem.arrays m !! a = Some arr →
            <[fresh (dom (Mem.arrays m)) := sort_Strings (bullet <$> xs)]>
              (Mem.arrays m) !! a = Some arr) as Hframe.
  { intros a arr Ha. rewrite lookup_insert_ne; [done|].
    intros <-. by apply (is_fresh (dom (Mem.arrays m))), elem_of_dom. }
  assert (Mem.contents
            (Mem.Store
               (<[fresh (dom (Mem.arrays m)) := sort_Strings (bullet <$> xs)]>
                  (Mem.arrays m)) (Mem.structs m)) s = Some xs) as Hc'.
  { by apply (contents_frame m). }
  split_and!; try done.
  - by exists s.
  - by apply (Mem_Unwrap_run _ e s).
  - by apply (Mem_Unwrap_run _ e s).
Qed.

Lemma Error_leaves_receiver_unchanged_witness :
  ∃ (report : string) (m' : Mem.store),
    Mem.Error (Some 7%positive) example_store = Some (report, m')
    ∧ report = joinedError_Error (JoinedError ["b"; "a"])
    ∧ Mem.structs m' = Mem.structs example_store
    ∧ (∀ (a : Mem.loc) (arr : list string),
         Mem.arrays example_store !! a = Some arr →
         Mem.arrays m' !! a = Some arr)
    ∧ Mem.valid_receiver m' 7%positive ["b"; "a"]
    ∧ Mem.Unwrap (Some 7%positive) m'
      = Some (Some (errorString <$> ["b"; "a"]), m')
    ∧ Mem.Unwrap (Some 7%positive) m'
      = Some (Unwrap (Some (JoinedError ["b"; "a"])), m').
Proof.
  apply (Error_leaves_receiver_unchanged example_store 7%positive ["b"; "a"]).
  exists (Mem.Slice 1%positive 1 2). split; reflexivity.
Defined.

(** ** The combinators and the built-in hooks *)

Section hook_facts.
Import Hooks.
Context {W : Type}.
Implicit Types (f g : DecodeHookFunc W) (fs : list (DecodeHookFunc W)).
Implicit Types (a b s t : Value) (w : W).

Lemma shape_of_zero (x : Shape) : shape_of (zero x) = x.
Proof. by destruct x. Qed.

Lemma or_from_all_fail fs a b w msgs w' :
  failures fs a b w = Some (msgs, w') →
  ∀ allErrs : string,
    or_from fs a b allErrs w = (Err (errorString (allErrs +:+ lines msgs)), w').
Proof.
  revert w msgs. induction fs as [|f fs IH]; intros w msgs Hf allErrs.
  - simplify_eq/=. by rewrite str_app_nil_r.
  - simpl in Hf. cbn [or_from].
    destruct (DecodeHookExec f a b w) as [[out|e|v] w1]; try done.
    destruct (failures fs a b w1) as [[msgs1 w2]|] eqn:Hrest; simplify_eq.
    rewrite (IH _ _ Hrest). cbn [lines]. by rewrite !str_app_assoc.
Qed.

(** C5. When every hook of an OR-compose fails on an input, the composite
    fails with one error, and the message of that error is the messages of
    the hooks, each followed by a line break, one after the other in the
    order the hooks were declared: no bullet, no count, no sorting; it is
    not the aggregate of the decoder. *)
Theorem OrCompose_all_fail fs a b w (msgs : list string) w' :
  failures fs a b w = Some (msgs, w') →
  ∃ err : error,
    DecodeHookExec (OrComposeDecodeHookFunc fs) a b w = (Err err, w')
    ∧ Error err = lines msgs
    ∧ is_joinedError err = false.
Proof.
  intros Hf. exists (errorString (lines msgs)). split; [|done].
  simpl. by rewrite (or_from_all_fail fs a b w msgs w' Hf "").
Qed.

(** The composite runs its first hook and goes on with the rest on its
    output. *)
Lemma Compose_cons f fs s t w :
  DecodeHookExec (ComposeDecodeHookFunc (f :: fs)) s t w
  = match DecodeHookExec f s t w with
    | (Ok out, w') => compose_from fs t out w'
    | (Err e, w') => (Err e, w')
    | (Panic v, w') => (Panic v, w')
    end.
Proof. reflexivity. Qed.

(** C6. AND-compose of [f] and [g]: when [f] fails with [e], the composite
    fails with [e] in the state [f] left, whatever [g] is, so [g] is not
    invoked; when [f] succeeds, the composite is [g] on the output of [f]
    (resolved, as the source) and the same target, in the state [f]
    left. *)
Theorem Compose_first_failure_stops f g s t w :
  (∀ (e : error) w',
     DecodeHookExec f s t w = (Err e, w') →
     DecodeHookExec (ComposeDecodeHookFunc [f; g]) s t w = (Err e, w')
     ∧ ∀ g' : DecodeHookFunc W,
         DecodeHookExec (ComposeDecodeHookFunc [f; g']) s t w
         = DecodeHookExec (ComposeDecodeHookFunc [f; g]) s t w)
  ∧ (∀ (out : Output) w',
       DecodeHookExec f s t w = (Ok out, w') →
       DecodeHookExec (ComposeDecodeHookFunc [f; g]) s t w
       = DecodeHookExec g (resolve out) t w').
Proof.
  split.
  - intros e w' Hf. rewrite !Compose_cons, Hf. split; [done|].
    intros g'. by rewrite Compose_cons, Hf.
  - intros out w' Hf. rewrite Compose_cons, Hf. cbn [compose_from].
    unfold mbind, H_bind.
    by destruct (DecodeHookExec g (resolve out) t w') as [[?|?|?] ?].
Qed.

Lemma text_to_zero grammar (h : Builtin) (X x : Shape) w :
  X ≠ Text →
  DecodeHookExec (text_to (W := W) grammar h X) (zero x) (zero x) w
  = (Ok (Plain (zero x)), w).
Proof.
  intros HX. unfold text_to. cbn [DecodeHookExec]. rewrite shape_of_zero.
  case_decide as Hg; [|done]. destruct Hg as [-> <-]. done.
Qed.

Lemma target_not_Text (r : TextHook) : target r ≠ Text.
Proof. by destruct r. Qed.

Lemma compose_from_zero fs (x : Shape) w :
  Forall (λ f, ∀ w, DecodeHookExec f (zero x) (zero x) w
                    = (Ok (Plain (zero x)), w)) fs →
  compose_from fs (zero x) (Plain (zero x)) w = (Ok (Plain (zero x)), w).
Proof.
  induction 1 as [|f fs Hf _ IH]; [done|].
  cbn [compose_from resolve]. unfold mbind, H_bind. by rewrite Hf.
Qed.

(** C7. Every built-in hook, run on the zero value of a shape as the
    source and the zero value of the same shape as the target, returns
    that zero value, with no error (and without touching the state),
    whatever the grammars and the outer decoder are. *)
Theorem builtin_zero_is_noop
    (grammar : Builtin → Shape → string → Value + error)
    (outer_decode : Value → Value → H W Output)
    (shape_mismatch : Shape → Shape → error)
    (h : Builtin) (x : Shape) w :
  DecodeHookExec (builtin grammar outer_decode shape_mismatch h)
    (zero x) (zero x) w
  = (Ok (Plain (zero x)), w).
Proof.
  destruct h as [sep|r| | | |]; cbn [builtin].
  - unfold string_to_slice. cbn [DecodeHookExec]. rewrite shape_of_zero.
    case_decide as Hg; [|done]. by destruct Hg as [-> ?].
  - apply text_to_zero, target_not_Text.
  - cbn [ComposeDecodeHookFunc DecodeHookExec]. apply compose_from_zero.
    apply Forall_fmap, Forall_forall. intros r _ w0. simpl.
    apply text_to_zero, target_not_Text.
  - unfold text_unmarshaller. cbn [DecodeHookExec]. rewrite shape_of_zero.
    by destruct x as [| | | | | | |[]| | |].
  - unfold weakly_typed. cbn [DecodeHookExec]. rewrite shape_of_zero.
    by rewrite decide_True.
  - unfold struct_to_map. cbn [DecodeHookExec]. rewrite shape_of_zero.
    by destruct x.
Qed.

End hook_facts.

(** ** The cases of the test file, run on the model *)

Section test_cases.
Import Hooks Tests.

Example TestComposeDecodeHookFunc :
  DecodeHookExec (ComposeDecodeHookFunc [appending "foo"; appending "bar"])
    (VText "") (VBytes "") ()
  = (Ok (Plain (VText "foobar")), ()).
Proof. reflexivity. Qed.

Example TestComposeDecodeHookFunc_err :
  DecodeHookExec (ComposeDecodeHookFunc [failing "foo"; panicking])
    (VText "") (VBytes "") ()
  = (Err (errorString "foo"), ()).
Proof. reflexivity. Qed.

Example TestComposeDecodeHookFunc_kinds :
  snd (DecodeHookExec (ComposeDecodeHookFunc [returns_int; records_kind])
         (VText "") (VBytes "") KInvalid)
  = KInt.
Proof. reflexivity. Qed.

Example TestOrComposeDecodeHookFunc :
  DecodeHookExec (OrComposeDecodeHookFunc [appending "foo"; appending "bar"])
    (VText "") (VBytes "") ()
  = (Ok (Plain (VText "foo")), ()).
Proof. reflexivity. Qed.

Example TestOrComposeDecodeHookFunc_correctValueIsLast :
  DecodeHookExec
    (OrComposeDecodeHookFunc
       [failing "f1 error"; failing "f2 error"; appending "bar"])
    (VText "") (VBytes "") ()
  = (Ok (Plain (VText "bar")), ()).
Proof. reflexivity. Qed.

Example TestOrComposeDecodeHookFunc_err :
  DecodeHookExec
    (OrComposeDecodeHookFunc [failing "f1 error"; failing "f2 error"])
    (VText "") (VBytes "") ()
  = (Err (errorString ("f1 error" +:+ LF +:+ "f2 error" +:+ LF)), ()).
Proof. reflexivity. Qed.

(** OR-compose keeps the order of the hooks; the aggregate of the decoder
    would sort the messages. *)
Example OrCompose_keeps_order :
  DecodeHookExec (OrComposeDecodeHookFunc [failing "b"; failing "a"])
    (VText "") (VBytes "") ()
  = (Err (errorString ("b" +:+ LF +:+ "a" +:+ LF)), ()).
Proof. reflexivity. Qed.

(** A hook after a failing one is not run: the state it would change is
    as the failing hook left it. *)
Example Compose_does_not_run_the_rest :
  DecodeHookExec
    (ComposeDecodeHookFunc
       [DecodeHookFuncKind (λ _ _ _, fail (errorString "foo"));
        DecodeHookFuncKind (λ _ _ data n, (Ok (Plain data), S n))])
    (VText "") (VBytes "") 0
  = (Err (errorString "foo"), 0).
Proof. reflexivity. Qed.

Example TestComposeDecodeHookFunc_ReflectValueHook :
  DecodeHookExec (ComposeDecodeHookFunc [reflectValueHook; appending "bar"])
    (VText "") (VBytes "") ()
  = (Ok (Plain (VText "foobar")), ()).
Proof. reflexivity. Qed.

End test_cases.

Lemma OrCompose_all_fail_witness :
  ∃ err : error,
    Hooks.DecodeHookExec
      (Hooks.OrComposeDecodeHookFunc
         [Tests.failing "f1 error"; Tests.failing "f2 error"])
      (Hooks.VText "") (Hooks.VBytes "") ()
    = (Hooks.Err err, ())
    ∧ Error err = Hooks.lines ["f1 error"; "f2 error"]
    ∧ is_joinedError err = false.
Proof.
  apply (OrCompose_all_fail
           [Tests.failing "f1 error"; Tests.failing "f2 error"]
           (Hooks.VText "") (Hooks.VBytes "") ()
           ["f1 error"; "f2 error"] ()).
  reflexivity.
Defined.

(** * Further properties of the code *)

(** ** Appending in a loop and reporting *)

Lemma appendErrors_entries errors err :
  appendErrors errors err = errors ++ entries err.
Proof. by destruct err. Qed.

Lemma appendAll_entries errs : ∀ errors,
  appendAll errors errs = errors ++ mjoin (entries <$> errs).
Proof.
  unfold appendAll. induction errs as [|err errs IH]; intros errors; simpl.
  - by rewrite app_nil_r.
  - by rewrite IH, appendErrors_entries, <-app_assoc.
Qed.

(** X1. Appending a list of errors one by one adds, after the existing
    entries, the entries of each error in turn: the stored messages of an
    aggregate, the one message of any other error.  Appending two
    aggregates is appending the aggregate of their messages.  Only an error
    that is itself an aggregate is spliced: an aggregate wrapped in a
    [DecodeError] adds one entry, its whole report behind the field
    name. *)
Theorem appendAll_flattens (errors : list string) (errs : list error) :
  appendAll errors errs = errors ++ mjoin (entries <$> errs)
  ∧ (∀ a b : joinedError,
       appendErrors (appendErrors errors (joinedErrorPtr a)) (joinedErrorPtr b)
       = appendErrors errors (joinedErrorPtr (JoinedError (Errors a ++ Errors b))))
  ∧ (∀ a : list joinedError,
       appendAll errors (joinedErrorPtr <$> a) = errors ++ mjoin (Errors <$> a))
  ∧ (∀ (name : string) (e : joinedError),
       appendErrors errors (newDecodeError name (Some (joinedErrorPtr e)))
       = errors ++ ["'" +:+ name +:+ "' " +:+ joinedError_Error e]).
Proof.
  split_and!.
  - apply appendAll_entries.
  - intros a b. simpl. by rewrite <-app_assoc.
  - intros a. rewrite appendAll_entries. do 2 f_equal.
    by rewrite <-list_fmap_compose.
  - done.
Qed.

(** X2. Decomposing an aggregate with [Unwrap] and appending the errors it
    returns, one by one, gives back the stored messages in the stored
    order. *)
Theorem Unwrap_appendAll_round_trip (e : joinedError) :
  ∃ result : list error,
    Unwrap (Some e) = Some result
    ∧ appendAll [] result = Errors e
    ∧ ∀ errors : list string, appendAll errors result = errors ++ Errors e.
Proof.
  exists (errorString <$> Errors e). split; [done|].
  assert (∀ errors, appendAll errors (errorString <$> Errors e)
                    = errors ++ Errors e) as H.
  { intros errors. rewrite appendAll_entries. f_equal.
    induction (Errors e) as [|x xs IH]; [done|]. csimpl. by rewrite IH. }
  split; [apply (H [])|done].
Qed.

(** X3. The report does not depend on the order in which the errors were
    appended: two runs that append the same errors in different orders to
    the same list format to the same string. *)
Theorem report_independent_of_append_order
    (errors : list string) (errs errs' : list error) :
  errs ≡ₚ errs' →
  joinedError_Error (JoinedError (appendAll errors errs))
  = joinedError_Error (JoinedError (appendAll errors errs')).
Proof.
  intros Hp. rewrite !appendAll_entries.
  assert (errors ++ mjoin (entries <$> errs)
          ≡ₚ errors ++ mjoin (entries <$> errs')) as Hq.
  { by rewrite Hp. }
  unfold joinedError_Error. simpl.
  rewrite (sort_Strings_perm _ _ (fmap_Permutation bullet _ _ Hq)).
  by rewrite (Permutation_length Hq).
Qed.

Lemma report_independent_of_append_order_witness :
  joinedError_Error
    (JoinedError
       (appendAll ["x"]
          [errorString "b"; joinedErrorPtr (JoinedError ["c"; "a"])]))
  = joinedError_Error
      (JoinedError
         (appendAll ["x"]
            [joinedErrorPtr (JoinedError ["c"; "a"]); errorString "b"])).
Proof.
  apply (report_independent_of_append_order ["x"]
           [errorString "b"; joinedErrorPtr (JoinedError ["c"; "a"])]
           [joinedErrorPtr (JoinedError ["c"; "a"]); errorString "b"]).
  apply perm_swap.
Defined.

(** ** What the report keeps of the messages *)

Section report_facts.
Implicit Types (s t r : string) (c d : ascii) (ps qs xs : list string).

Lemma strings_Contains_byte s c :
  strings_Contains s (String c "") = has_byte c s.
Proof.
  induction s as [|d s IH]; [done|].
  cbn [strings_Contains has_byte]. rewrite IH. f_equal.
  simpl. by destruct (Ascii.eqb c d).
Qed.

Lemma has_byte_app c s t : has_byte c (s +:+ t) = has_byte c s || has_byte c t.
Proof.
  induction s as [|d s IH]; [done|].
  rewrite str_app_cons. cbn [has_byte]. by rewrite IH, orb_assoc.
Qed.

(** A string is cut in one way only at the first occurrence of a byte. *)
Lemma cut_at_byte c s s' r r' :
  has_byte c s = false → has_byte c s' = false →
  s +:+ String c r = s' +:+ String c r' → s = s' ∧ r = r'.
Proof.
  revert s'. induction s as [|d s IH]; intros [|d' s'] Hs Hs' Heq;
    rewrite ?str_app_cons, ?str_app_nil_l in Heq; simplify_eq/=.
  - done.
  - by rewrite Ascii.eqb_refl in Hs'.
  - by rewrite Ascii.eqb_refl in Hs.
  - apply orb_false_iff in Hs as [_ Hs]. apply orb_false_iff in Hs' as [_ Hs'].
    destruct (IH s' Hs Hs') as [-> ->]; done.
Qed.

Lemma has_byte_pretty_N_go c (x : N) s :
  (∀ n : N, pretty_N_char n ≠ c) →
  has_byte c (pretty_N_go x s) = has_byte c s.
Proof.
  intros Hc. revert s. induction (N.lt_wf_0 x) as [x _ IH]; intros s.
  destruct (decide (x = 0)%N) as [->|Hx]; [by rewrite pretty_N_go_0|].
  rewrite pretty_N_go_step by lia. rewrite IH by (apply N.div_lt; lia).
  cbn [has_byte]. destruct (Ascii.eqb_spec c (pretty_N_char (x `mod` 10))) as [->|?];
    [by destruct (Hc (x `mod` 10)%N)|done].
Qed.

Lemma has_byte_fmt_d c (n : nat) :
  (∀ k : N, pretty_N_char k ≠ c) → has_byte c (fmt_d (Z.of_nat n)) = false.
Proof.
  intros Hc. unfold fmt_d, pretty, pretty_Z.
  destruct (Z.of_nat n) as [|p|p] eqn:Hn; [| |lia].
  - cbn. destruct (Ascii.eqb_spec c "0") as [->|?]; [|done].
    by destruct (Hc 0%N).
  - unfold pretty, pretty_positive, pretty, pretty_N.
    rewrite decide_False by done. by apply has_byte_pretty_N_go.
Qed.

Lemma strings_Join_cons2 s t ps sep :
  strings_Join (s :: t :: ps) sep = s +:+ sep +:+ strings_Join (t :: ps) sep.
Proof. reflexivity. Qed.

(** Every element of a joined list is in the result. *)
Lemma strings_Join_contains ps sep s :
  s ∈ ps → strings_Contains (strings_Join ps sep) s = true.
Proof.
  induction ps as [|p [|q ps] IH]; intros Hin.
  - by apply elem_of_nil in Hin.
  - apply list_elem_of_singleton in Hin as ->.
    apply strings_Contains_spec. exists "", "". by rewrite str_app_nil_r.
  - rewrite strings_Join_cons2. apply elem_of_cons in Hin as [->|Hin].
    + apply (strings_Contains_mid "").
    + eapply strings_Contains_trans; [|by apply IH].
      apply strings_Contains_spec. exists (p +:+ sep), "".
      by rewrite str_app_nil_r, str_app_assoc.
Qed.

(** Joining with line breaks loses nothing when no element is empty or
    holds a line break. *)
Lemma strings_Join_LF_inj ps qs :
  Forall (λ p, has_byte LF_byte p = false ∧ p ≠ "") ps →
  Forall (λ p, has_byte LF_byte p = false ∧ p ≠ "") qs →
  strings_Join ps LF = strings_Join qs LF → ps = qs.
Proof.
  intros Hps. revert qs.
  induction ps as [|p ps IH]; intros qs Hqs Heq.
  - destruct qs as [|q [|q' qs]]; [done|..];
      apply Forall_cons in Hqs as [[_ Hq] _]; destruct q; done.
  - apply Forall_cons in Hps as [[Hp Hpne] Hps].
    destruct qs as [|q qs].
    { destruct ps; destruct p; done. }
    apply Forall_cons in Hqs as [[Hq Hqne] Hqs].
    destruct ps as [|p' ps], qs as [|q' qs].
    + simpl in Heq. by subst.
    + rewrite strings_Join_cons2 in Heq. simpl in Heq. subst p.
      rewrite has_byte_app in Hp. apply orb_false_iff in Hp as [_ Hp].
      by rewrite has_byte_app in Hp.
    + rewrite strings_Join_cons2 in Heq. simpl in Heq. subst q.
      rewrite has_byte_app in Hq. apply orb_false_iff in Hq as [_ Hq].
      by rewrite has_byte_app in Hq.
    + rewrite !strings_Join_cons2 in Heq.
      apply (cut_at_byte LF_byte) in Heq as [-> Heq]; [|done..].
      f_equal. by apply IH.
Qed.
End report_facts.

(** X4. No message is lost: every stored message is in the report, behind
    its bullet. *)
Theorem report_contains_every_message (e : joinedError) (i : nat) (msg : string) :
  Errors e !! i = Some msg →
  strings_Contains (joinedError_Error e) (bullet msg) = true
  ∧ strings_Contains (joinedError_Error e) msg = true.
Proof.
  intros Hi.
  assert (strings_Contains (joinedError_Error e) (bullet msg) = true) as Hb.
  { unfold joinedError_Error.
    eapply strings_Contains_trans; last first.
    - apply (strings_Join_contains (sort_Strings (bullet <$> Errors e)) LF
               (bullet msg)).
      rewrite sort_Strings_Permutation. apply list_elem_of_fmap.
      exists msg. split; [done|]. by eapply list_elem_of_lookup_2.
    - apply strings_Contains_spec.
      exists (fmt_d (Z.of_nat (length (Errors e))) +:+ " error(s) decoding:"
                +:+ LF +:+ LF), "".
      by rewrite str_app_nil_r, !str_app_assoc. }
  split; [done|].
  eapply strings_Contains_trans; [exact Hb|].
  apply strings_Contains_spec. exists "* ", "". by rewrite str_app_nil_r.
Qed.

Lemma report_contains_every_message_witness :
  strings_Contains (joinedError_Error (JoinedError ["b"; "a"])) (bullet "a")
  = true
  ∧ strings_Contains (joinedError_Error (JoinedError ["b"; "a"])) "a" = true.
Proof.
  apply (report_contains_every_message (JoinedError ["b"; "a"]) 1 "a").
  reflexivity.
Defined.

Lemma has_byte_bullet s : has_byte LF_byte (bullet s) = has_byte LF_byte s.
Proof. reflexivity. Qed.

Lemma bullet_inj : Inj (=) (=) bullet.
Proof. intros s t Hst. by simplify_eq. Qed.

Lemma points_LF_free xs :
  Forall (λ s, strings_Contains s LF = false) xs →
  Forall (λ p, has_byte LF_byte p = false ∧ p ≠ "")
         (sort_Strings (bullet <$> xs)).
Proof.
  intros Hxs. rewrite sort_Strings_Permutation. apply Forall_fmap.
  eapply Forall_impl; [exact Hxs|]. intros s Hs. split.
  - rewrite has_byte_bullet, <-strings_Contains_byte. exact Hs.
  - intros [=].
Qed.

(** X5. When no message holds a line break, the report determines the
    messages up to their order: two aggregates with the same report hold
    the same messages, as many times each. *)
Theorem report_determines_messages (e e' : joinedError) :
  Forall (λ s, strings_Contains s LF = false) (Errors e) →
  Forall (λ s, strings_Contains s LF = false) (Errors e') →
  joinedError_Error e = joinedError_Error e' →
  Errors e ≡ₚ Errors e' ∧ length (Errors e) = length (Errors e').
Proof.
  intros He He' Heq. unfold joinedError_Error in Heq.
  assert (∀ k : N, pretty_N_char k ≠ " "%char) as Hsp.
  { intros k. unfold pretty_N_char. by repeat case_match. }
  change (" error(s) decoding:" +:+ LF +:+ LF +:+ ?x)
    with (String " " ("error(s) decoding:" +:+ LF +:+ LF +:+ x)) in Heq.
  apply (cut_at_byte " "%char) in Heq as [_ Heq];
    [|by apply has_byte_fmt_d..].
  rewrite <-!(str_app_assoc "error(s) decoding:") in Heq.
  rewrite <-!(str_app_assoc _ LF (strings_Join _ _)) in Heq.
  apply (inj (String.app _)) in Heq.
  apply strings_Join_LF_inj in Heq; [|by apply points_LF_free..].
  rewrite !sort_Strings_bullet in Heq.
  apply (inj (fmap bullet)) in Heq.
  assert (Errors e ≡ₚ Errors e') as Hp.
  { by rewrite <-(sort_Strings_Permutation (Errors e)), Heq,
       sort_Strings_Permutation. }
  split; [done|]. by rewrite Hp.
Qed.

Lemma report_determines_messages_witness :
  Errors (JoinedError ["b"; "a"]) ≡ₚ Errors (JoinedError ["a"; "b"])
  ∧ length (Errors (JoinedError ["b"; "a"]))
    = length (Errors (JoinedError ["a"; "b"])).
Proof.
  apply (report_determines_messages (JoinedError ["b"; "a"])
           (JoinedError ["a"; "b"])).
  - by repeat constructor.
  - by repeat constructor.
  - vm_compute. reflexivity.
Defined.

(** With line breaks in the messages the report is ambiguous: these two
    aggregates hold different messages and have the same report. *)
Example report_ambiguous_with_line_breaks :
  joinedError_Error (JoinedError ["a" +:+ LF +:+ "* b"; "c"])
  = joinedError_Error (JoinedError ["a"; "b" +:+ LF +:+ "* c"])
  ∧ ¬ (["a" +:+ LF +:+ "* b"; "c"] ≡ₚ ["a"; "b" +:+ LF +:+ "* c"]).
Proof.
  split; [vm_compute; reflexivity|].
  intros Hp. assert ("c" ∈ ["a"; "b" +:+ LF +:+ "* c"]) as Hin.
  { rewrite <-Hp. by do 2 constructor. }
  repeat (apply elem_of_cons in Hin as [Hin|Hin]; [discriminate|]).
  by apply elem_of_nil in Hin.
Qed.

(** ** errors.go: chains of [DecodeError]s, and the two families *)

(** X6. A chain of [DecodeError]s built by [newDecodeError] around a cause
    reads as the quoted field names, outermost first, each followed by a
    space, and then the message of the cause; [Unwrap] followed once per
    name returns the cause, and on a non-empty chain [Name] is the
    outermost name and [Unwrap] the rest of the chain. *)
Theorem nested_DecodeError_message (names : list string) (cause : error) :
  Error (nested names cause) = quoted_names names +:+ Error cause
  ∧ unwrap_times (length names) (nested names cause) = Some cause
  ∧ (∀ name names', names = name :: names' →
       Name (nested names cause) = Some name
       ∧ DecodeError_Unwrap (nested names cause)
         = Some (Some (nested names' cause))).
Proof.
  split_and!.
  - induction names as [|name names IH]; [done|].
    change (nested (name :: names) cause)
      with (DecodeError name (Some (nested names cause))).
    change (Error (DecodeError name (Some ?e)))
      with ("'" +:+ name +:+ "' " +:+ Error e).
    cbn [quoted_names]. by rewrite IH, !str_app_assoc.
  - induction names as [|name names IH]; [done|]. exact IH.
  - by intros name names' ->.
Qed.

(** X7. The message of an [UnconvertibleTypeError] and of an
    [ErrUnconvertibleType] contains the value that could not be converted,
    as [%v] prints it, and the dynamic type of that value, whatever the
    expected type and the field name. *)
Theorem unconvertible_errors_echo_value
    (Expected : reflect_Value) (Value : any) (name : string) :
  error_contains_input (UnconvertibleTypeError Expected Value) Value = true
  ∧ error_contains_input (ErrUnconvertibleType name Expected Value) Value = true
  ∧ strings_Contains (Error (UnconvertibleTypeError Expected Value))
      (fmt_TypeOf Value) = true
  ∧ strings_Contains (Error (ErrUnconvertibleType name Expected Value))
      (fmt_TypeOf Value) = true.
Proof.
  unfold error_contains_input. split_and!; apply strings_Contains_spec.
  - exists ("expected type '" +:+ rtype_String (Type_ Expected)
            +:+ "', got unconvertible type '" +:+ fmt_TypeOf Value
            +:+ "', value: '"), "'".
    cbn [Error]. by rewrite !str_app_assoc.
  - exists ("'" +:+ name +:+ "' expected type '"
            +:+ rtype_String (Type_ Expected)
            +:+ "', got unconvertible type '" +:+ fmt_TypeOf Value
            +:+ "', value: '"), "'".
    cbn [Error]. by rewrite !str_app_assoc.
  - exists ("expected type '" +:+ rtype_String (Type_ Expected)
            +:+ "', got unconvertible type '"),
      ("', value: '" +:+ fmt_v Value +:+ "'").
    cbn [Error]. by rewrite !str_app_assoc.
  - exists ("'" +:+ name +:+ "' expected type '"
            +:+ rtype_String (Type_ Expected)
            +:+ "', got unconvertible type '"),
      ("', value: '" +:+ fmt_v Value +:+ "'").
    cbn [Error]. by rewrite !str_app_assoc.
Qed.



(** X8. The two families of error types give the same messages for a parse
    error and for an unconvertible type: an [ErrCannotParse] reads as the
    [DecodeError] of the same field around the [ParseError], an
    [ErrUnconvertibleType] as the [DecodeError] around the
    [UnconvertibleTypeError].  They differ on a plain decode error:
    [ErrCannotDecode] puts a colon after the quoted name, [DecodeError]
    does not. *)
Theorem error_families_agree
    (name : string) (Expected : reflect_Value) (Value : any)
    (Err : option error) :
  Error (ErrCannotParse name Err Expected Value)
  = Error (newDecodeError name (Some (ParseError Expected Value Err)))
  ∧ Error (ErrUnconvertibleType name Expected Value)
    = Error (newDecodeError name (Some (UnconvertibleTypeError Expected Value)))
  ∧ Error (ErrCannotDecode name Err) ≠ Error (newDecodeError name Err).
Proof.
  split_and!; [done..|].
  cbn [newDecodeError Error]. intros Heq.
  apply (inj (String.app _)) in Heq.
  apply (inj (String.app _)) in Heq. discriminate.
Qed.

(** ** The store: calling [Error] again *)

Lemma Error_keeps_receiver (m : Mem.store) (e : Mem.loc) (xs : list string) :
  Mem.valid_receiver m e xs →
  ∃ m' : Mem.store,
    Mem.Error (Some e) m = Some (joinedError_Error (JoinedError xs), m')
    ∧ Mem.valid_receiver m' e xs
    ∧ Mem.structs m' = Mem.structs m
    ∧ (∀ (a : Mem.loc) (arr : list string),
         Mem.arrays m !! a = Some arr → Mem.arrays m' !! a = Some arr)
    ∧ size (Mem.arrays m') = S (size (Mem.arrays m)).
Proof.
  intros (s & He & Hc). eexists. split; [by apply (Mem_Error_run m e s xs)|].
  assert (Mem.arrays m !! fresh (dom (Mem.arrays m)) = None) as Hfresh
    by (apply not_elem_of_dom, is_fresh).
  assert (∀ (a : Mem.loc) (arr : list string),
            Mem.arrays m !! a = Some arr →
            <[fresh (dom (Mem.arrays m)) := sort_Strings (bullet <$> xs)]>
              (Mem.arrays m) !! a = Some arr) as Hframe.
  { intros a arr Ha. rewrite lookup_insert_ne; [done|]. congruence. }
  split_and!; simpl; try done.
  - exists s. split; [done|]. by apply (contents_frame m).
  - by rewrite map_size_insert_None.
Qed.

(** X9. [Error] can be called any number of times on a receiver: every
    call returns the same report, the receiver still shows the same
    messages after the last one, every struct and every array that existed
    is unchanged, and each call has added one array to the store. *)
Theorem Error_is_repeatable
    (k : nat) (m : Mem.store) (e : Mem.loc) (xs : list string) :
  Mem.valid_receiver m e xs →
  ∃ m' : Mem.store,
    Error_times k (Some e) m
    = Some (replicate k (joinedError_Error (JoinedError xs)), m')
    ∧ Mem.valid_receiver m' e xs
    ∧ Mem.structs m' = Mem.structs m
    ∧ (∀ (a : Mem.loc) (arr : list string),
         Mem.arrays m !! a = Some arr → Mem.arrays m' !! a = Some arr)
    ∧ size (Mem.arrays m') = size (Mem.arrays m) + k.
Proof.
  revert m. induction k as [|k IH]; intros m Hv.
  - exists m. split_and!; first [done | lia].
  - destruct (Error_keeps_receiver m e xs Hv) as (m1 & Hrun & Hv1 & Hs1 & Hf1 & Hn1).
    destruct (IH m1 Hv1) as (m' & Hrest & Hv' & Hs' & Hf' & Hn').
    exists m'. split_and!.
    + cbn [Error_times]. erewrite bind_Some by exact Hrun.
      erewrite bind_Some by exact Hrest. done.
    + done.
    + congruence.
    + intros a arr Ha. by apply Hf', Hf1.
    + lia.
Qed.

Lemma Error_is_repeatable_witness :
  ∃ m' : Mem.store,
    Error_times 3 (Some 7%positive) example_store
    = Some (replicate 3 (joinedError_Error (JoinedError ["b"; "a"])), m')
    ∧ Mem.valid_receiver m' 7%positive ["b"; "a"]
    ∧ Mem.structs m' = Mem.structs example_store
    ∧ (∀ (a : Mem.loc) (arr : list string),
         Mem.arrays example_store !! a = Some arr →
         Mem.arrays m' !! a = Some arr)
    ∧ size (Mem.arrays m') = size (Mem.arrays example_store) + 3.
Proof.
  apply (Error_is_repeatable 3 example_store 7%positive ["b"; "a"]).
  exists (Mem.Slice 1%positive 1 2). split; reflexivity.
Defined.

(** ** The test suite: what its verdict depends on *)

Section suite_facts.
Import Suite.
Context {Hook V : Type}.
Variable DecodeHookExec : Hook → V → V → V + error.
Variable DeepEqual : V → V → bool.
Variable zeroF zeroT : V.

Lemma case_passed (tc : decodeHookTestCase) (h : Hook) :
  is_passed (decodeHookTestCase_Run DecodeHookExec DeepEqual zeroT tc h) = true
  ↔ ∃ actual, DecodeHookExec h (from tc) zeroT = inl actual
              ∧ DeepEqual actual (expected tc) = true.
Proof.
  unfold decodeHookTestCase_Run.
  destruct (DecodeHookExec h (from tc) zeroT) as [actual|err].
  - destruct (DeepEqual actual (expected tc)) eqn:Heq; split.
    + eauto.
    + done.
    + done.
    + intros (? & [= <-] & ?). congruence.
  - split; [done|]. by intros (? & ? & ?).
Qed.

(** X10. The suite never runs its failure cases: the subtest "Fail"
    repeats the verdicts of "OK", the results are the same whatever the
    list of failure cases is, and the suite passes exactly when every OK
    case converts without error to the expected value and the hook returns
    the zero source on the zero source and zero target. *)
Theorem Run_never_runs_failure_cases
    (ts : decodeHookTestSuite (Hook:=Hook) (V:=V)) :
  Fail (Run DecodeHookExec DeepEqual zeroF zeroT ts)
  = OK (Run DecodeHookExec DeepEqual zeroF zeroT ts)
  ∧ (∀ fail' : list decodeHookFailureTestCase,
       Run DecodeHookExec DeepEqual zeroF zeroT (TestSuite (fn ts) (ok ts) fail')
       = Run DecodeHookExec DeepEqual zeroF zeroT ts)
  ∧ (succeeds (Run DecodeHookExec DeepEqual zeroF zeroT ts) = true
     ↔ Forall (λ tc, ∃ actual,
                 DecodeHookExec (fn ts) (from tc) zeroT = inl actual
                 ∧ DeepEqual actual (expected tc) = true) (ok ts)
       ∧ ∃ actual, DecodeHookExec (fn ts) zeroF zeroF = inl actual
                   ∧ DeepEqual actual zeroF = true).
Proof.
  split_and!; [done..|].
  unfold succeeds. cbn [OK Fail NoOp Suite.Run].
  rewrite <-Is_true_true, !andb_True, !forallb_True, !Forall_fmap.
  assert (Forall (Is_true ∘ is_passed
                    ∘ (λ tc, decodeHookTestCase_Run DecodeHookExec
                               DeepEqual zeroT tc (fn ts))) (ok ts)
          ↔ Forall (λ tc, ∃ actual,
                      DecodeHookExec (fn ts) (from tc) zeroT = inl actual
                      ∧ DeepEqual actual (expected tc) = true) (ok ts)) as ->.
  { apply Forall_proper; [|done]. intros tc. simpl.
    by rewrite <-case_passed, Is_true_true. }
  destruct (DecodeHookExec (fn ts) zeroF zeroF) as [actual|err].
  - destruct (DeepEqual actual zeroF) eqn:Heq; simpl.
    + split; [intros [[Hok _] _]; eauto | by intros [Hok _]].
    + split; [by intros [_ []]|]. intros (_ & ? & [= <-] & ?). congruence.
  - simpl. split; [by intros [_ []]|]. by intros (_ & ? & ? & ?).
Qed.
End suite_facts.
